(** * The cached database connection

    The second fragment of [src/components/shared/Sidebar.tsx] (lines 127-170)
    is a module that memoises one Mongoose connection per process:

    - line 131 reads [process.env.MONGODB_URL] once, when the module loads;
    - lines 140-148 create the cache record [{ conn: null, promise: null }];
    - lines 151-170 define the async function [connectToDatabase].

    The function has a single suspension point, the [await] of line 166.  It
    is embedded here as the two synchronous pieces the JavaScript run time
    executes: the code from the call up to the [await], and the code that runs
    when the awaited promise has settled.  A world records the cache, the
    promises handed out by [mongoose.connect], the log of calls made to
    [mongoose.connect] and one entry per invocation of [connectToDatabase].
    The scheduler, the driver and the code that may write [process.env] are
    events interleaved arbitrarily with the two pieces. *)

From stdpp Require Import base option list strings.

(** ** Values *)

(** A [Mongoose] handle is known by its reference. *)
Definition Mongoose := nat.

(** A thrown or rejected JavaScript error: its class name and its message. *)
Record JsError := mkJsError { err_name : string; err_message : string }.

(** [new Error('Missing MONGODB_URL')], line 157. *)
Definition missing_url_error : JsError :=
  {| err_name := "Error"; err_message := "Missing MONGODB_URL" |}.

(** The second argument of [mongoose.connect], lines 160-163. *)
Record ConnectOptions := { dbName : string; bufferCommands : bool }.

(** A promise created by [mongoose.connect]. *)
Inductive PromiseState :=
| Pending
| Fulfilled (m : Mongoose)
| Rejected (e : JsError).

(** [interface MongooseConnection], lines 134-137; a promise is known by its
    reference, its index in the store of the world. *)
Record MongooseConnection := {
  conn : option Mongoose;
  promise : option nat
}.

(** One invocation of [connectToDatabase]: suspended at the [await] of line
    166 on a promise, or finished. *)
Inductive Task :=
| Awaiting (p : nat)
| Returned (m : Mongoose)
| Threw (e : JsError).

Record World := {
  process_env : option string;      (* process.env.MONGODB_URL, now *)
  MONGODB_URL : option string;      (* the module constant of line 131 *)
  cached : MongooseConnection;      (* the record of lines 140-148 *)
  promises : list PromiseState;     (* promises returned by mongoose.connect *)
  connect_calls : list (string * ConnectOptions);
  tasks : list Task
}.

(** JavaScript truthiness of a [string | undefined]: [undefined] and the empty
    string are falsy. *)
Definition truthy (v : option string) : bool :=
  match v with
  | None => false
  | Some s => negb (String.eqb s EmptyString)
  end.

(** ** Field updates *)

Definition set_process_env (v : option string) (w : World) : World :=
  {| process_env := v; MONGODB_URL := MONGODB_URL w; cached := cached w;
     promises := promises w; connect_calls := connect_calls w;
     tasks := tasks w |}.

Definition set_cached (c : MongooseConnection) (w : World) : World :=
  {| process_env := process_env w; MONGODB_URL := MONGODB_URL w; cached := c;
     promises := promises w; connect_calls := connect_calls w;
     tasks := tasks w |}.

Definition set_promises (ps : list PromiseState) (w : World) : World :=
  {| process_env := process_env w; MONGODB_URL := MONGODB_URL w;
     cached := cached w; promises := ps; connect_calls := connect_calls w;
     tasks := tasks w |}.

Definition set_tasks (ts : list Task) (w : World) : World :=
  {| process_env := process_env w; MONGODB_URL := MONGODB_URL w;
     cached := cached w; promises := promises w;
     connect_calls := connect_calls w; tasks := ts |}.

(** [cached.promise = p] and [cached.conn = m]. *)
Definition assign_promise (p : nat) (w : World) : World :=
  set_cached {| conn := conn (cached w); promise := Some p |} w.

Definition assign_conn (m : Mongoose) (w : World) : World :=
  set_cached {| conn := Some m; promise := promise (cached w) |} w.

(** ** Module initialisation, lines 131-148 *)

(** Lines 140-148: the record found in the global scope, or a fresh one. *)
Definition init_cached (global_mongoose : option MongooseConnection)
  : MongooseConnection :=
  match global_mongoose with
  | Some c => c
  | None => {| conn := None; promise := None |}
  end.

(** Loading the module in a fresh process, whose global scope holds no
    [mongoose] entry: the constant of line 131 captures the environment. *)
Definition module_load (env : option string) : World :=
  {| process_env := env; MONGODB_URL := env; cached := init_cached None;
     promises := []; connect_calls := []; tasks := [] |}.

(** ** The driver *)

(** [mongoose.connect(uri, options)] is an async function of the driver: the
    call is logged and a new pending promise is returned; the driver reports
    success or failure later, by settling that promise. *)
Definition mongoose_connect (uri : string) (opts : ConnectOptions) (w : World)
  : nat * World :=
  (length (promises w),
   {| process_env := process_env w; MONGODB_URL := MONGODB_URL w;
      cached := cached w; promises := promises w ++ [Pending];
      connect_calls := connect_calls w ++ [(uri, opts)];
      tasks := tasks w |}).

(** ** connectToDatabase, lines 151-170 *)

Definition connect_options : ConnectOptions :=
  {| dbName := "Imaginify"; bufferCommands := false |}.

(** From the call to the first suspension (or to the end). *)
Definition connectToDatabase (w : World) : Task * World :=
  match conn (cached w) with
  | Some c => (Returned c, w)                               (* 153-154 *)
  | None =>
      match MONGODB_URL w with
      | Some url =>
          if truthy (Some url) then
            let '(p, w1) :=                                 (* 160-163 *)
              match promise (cached w) with
              | Some p => (p, w)
              | None => mongoose_connect url connect_options w
              end in
            (Awaiting p, assign_promise p w1)               (* 160, 166 *)
          else (Threw missing_url_error, w)                 (* 157 *)
      | None => (Threw missing_url_error, w)                (* 157 *)
      end
  end.

(** After the [await] of line 166, once promise [p] has settled. *)
Definition connectToDatabase_resume (p : nat) (w : World)
  : option (Task * World) :=
  match promises w !! p with
  | Some (Fulfilled m) =>
      Some (Returned m, assign_conn m w)                    (* 166, 169 *)
  | Some (Rejected e) => Some (Threw e, w)
  | Some Pending | None => None
  end.

(** ** Events and steps *)

Inductive Event :=
| Call                              (* someone calls connectToDatabase() *)
| Resume (t : nat)                  (* the scheduler resumes invocation t *)
| Fulfil (p : nat) (m : Mongoose)   (* the driver resolves promise p *)
| Reject (p : nat) (e : JsError)    (* the driver rejects promise p *)
| SetEnv (v : option string).       (* process.env.MONGODB_URL is written *)

Definition settle (p : nat) (s : PromiseState) (w : World) : option World :=
  match promises w !! p with
  | Some Pending => Some (set_promises (<[p := s]> (promises w)) w)
  | _ => None
  end.

Definition step (w : World) (ev : Event) : option World :=
  match ev with
  | Call =>
      let '(t, w') := connectToDatabase w in
      Some (set_tasks (tasks w' ++ [t]) w')
  | Resume t =>
      match tasks w !! t with
      | Some (Awaiting p) =>
          match connectToDatabase_resume p w with
          | Some (k, w') => Some (set_tasks (<[t := k]> (tasks w')) w')
          | None => None
          end
      | _ => None
      end
  | Fulfil p m => settle p (Fulfilled m) w
  | Reject p e => settle p (Rejected e) w
  | SetEnv v => Some (set_process_env v w)
  end.

Fixpoint run (evs : list Event) (w : World) : option World :=
  match evs with
  | [] => Some w
  | ev :: evs' =>
      match step w ev with
      | Some w' => run evs' w'
      | None => None
      end
  end.

(** The worlds a process can be in. *)
Inductive reachable : World → Prop :=
| reachable_load env : reachable (module_load env)
| reachable_step w ev w' :
    reachable w → step w ev = Some w' → reachable w'.

(** What a run shows when the current environment is left out. *)
Definition observe (w : World) : World := set_process_env None w.

Definition is_SetEnv (ev : Event) : bool :=
  match ev with SetEnv _ => true | _ => false end.

Definition erase_env (evs : list Event) : list Event :=
  filter (λ ev, is_SetEnv ev = false) evs.

(** ** The invariant of the cache *)

(** What holds of every world of a process: the client is the value of the
    recorded attempt, the recorded attempt is the only call ever made to the
    driver, suspended invocations wait for the recorded attempt, and finished
    invocations ended with the cached client, with the configuration error or
    with the rejection of the recorded attempt. *)
Record Inv (w : World) : Prop := {
  inv_conn : ∀ c, conn (cached w) = Some c →
    ∃ p, promise (cached w) = Some p ∧ promises w !! p = Some (Fulfilled c);
  inv_attempt : ∀ p, promise (cached w) = Some p →
    ∃ url, MONGODB_URL w = Some url ∧ truthy (Some url) = true ∧
           connect_calls w = [(url, connect_options)] ∧
           p = 0 ∧ length (promises w) = 1;
  inv_idle : promise (cached w) = None →
    connect_calls w = [] ∧ promises w = [];
  inv_awaiting : ∀ t p, tasks w !! t = Some (Awaiting p) →
    promise (cached w) = Some p;
  inv_returned : ∀ t m, tasks w !! t = Some (Returned m) →
    conn (cached w) = Some m;
  inv_threw : ∀ t e, tasks w !! t = Some (Threw e) →
    (truthy (MONGODB_URL w) = false ∧ e = missing_url_error) ∨
    (∃ p, promise (cached w) = Some p ∧ promises w !! p = Some (Rejected e))
}.

Definition url0 : string := "mongodb://db.example/".

(** A rejection by the driver. *)
Definition econnrefused : JsError :=
  {| err_name := "MongoNetworkError"; err_message := "connect ECONNREFUSED" |}.

(** The world a fresh process is in after a schedule of events. *)
Definition world_after (evs : list Event) (env : option string) : World :=
  default (module_load env) (run evs (module_load env)).

(** ** Reloading the module *)

(** The top level of the module (lines 131-148) evaluated again in the same
    process, as when the bundler reloads the file: line 131 reads the
    environment again, and line 140 finds in the global scope the record that
    line 144 stored there at the first load, so lines 143-148 keep it.  Calls
    made afterwards go to the reloaded module. *)
Definition module_reload (w : World) : World :=
  {| process_env := process_env w; MONGODB_URL := process_env w;
     cached := init_cached (Some (cached w));
     promises := promises w; connect_calls := connect_calls w;
     tasks := tasks w |}.

(** The worlds of a process whose module may be reloaded. *)
Inductive reachable_hmr : World → Prop :=
| hmr_load env : reachable_hmr (module_load env)
| hmr_step w ev w' :
    reachable_hmr w → step w ev = Some w' → reachable_hmr w'
| hmr_reload w : reachable_hmr w → reachable_hmr (module_reload w).

(** The part of the invariant that does not mention the configuration. *)
Record CacheInv (w : World) : Prop := {
  cinv_conn : ∀ c, conn (cached w) = Some c →
    ∃ p, promise (cached w) = Some p ∧ promises w !! p = Some (Fulfilled c);
  cinv_attempt : ∀ p, promise (cached w) = Some p →
    p = 0 ∧ length (promises w) = 1 ∧ length (connect_calls w) = 1;
  cinv_idle : promise (cached w) = None →
    connect_calls w = [] ∧ promises w = [];
  cinv_awaiting : ∀ t p, tasks w !! t = Some (Awaiting p) →
    promise (cached w) = Some p;
  cinv_returned : ∀ t m, tasks w !! t = Some (Returned m) →
    conn (cached w) = Some m
}.

(** ** Schedules *)

Definition finished (k : Task) : bool :=
  match k with Awaiting _ => false | _ => true end.

(** [n] calls made before the driver answers, the answer, and then the
    resumption of the [n] invocations in the order of their calls. *)
Definition concurrent_calls (n : nat) (answer : Event) : list Event :=
  replicate n Call ++ answer :: map Resume (seq 0 n).

(** * The sidebar component, lines 10-103 *)

(** A JavaScript value of the kinds the component's expressions produce. *)
Inductive JsValue :=
| JsBool (b : bool)
| JsString (s : string).

(** [a && s] for a boolean [a]. *)
Definition js_and (a : bool) (s : string) : JsValue :=
  if a then JsString s else JsBool false.

(** The conversion to string that a template literal applies. *)
Definition js_to_string (v : JsValue) : string :=
  match v with
  | JsBool true => "true"
  | JsBool false => "false"
  | JsString s => s
  end.

(** An entry of [navLinks], with the fields the component reads.  The array
    itself comes from the constants module, which is not part of the sources;
    the component takes it as an argument here. *)
Record NavLink := { label : string; route : string; icon : string }.

(** The value of a JSX attribute. *)
Inductive PropValue :=
| PString (s : string)
| PNumber (n : nat)
| PTrue.

(** A React element: its type, its key, its attributes and its children. *)
#[warnings="-register-all"]
Inductive Node :=
| Text (s : string)
| Element (tag : string) (key : option string)
    (props : list (string * PropValue)) (children : list Node).

(** The list item of lines 31-51, and again of lines 60-80. *)
Definition nav_item (pathname : string) (link : NavLink) : Node :=
  let isActive := String.eqb (route link) pathname in
  Element "li" (Some (route link))
    [("className",
      PString ("sidebar-nav_element group " +:+
               (if isActive then "bg-purple-gradient text-white"
                else "text-gray-700")))]
    [Element "Link" None
       [("className", PString "sidebar-link"); ("href", PString (route link))]
       [Element "Image" None
          [("src", PString (icon link)); ("alt", PString "logo");
           ("width", PNumber 24); ("height", PNumber 24);
           ("className",
            PString (js_to_string (js_and isActive "brightness-200")))]
          [];
        Text (label link)]].

(** The list item of lines 83-85. *)
Definition user_item : Node :=
  Element "li" None [("className", PString "flex-center cursor-pointer gap-2 p-4")]
    [Element "UserButton" None [("showName", PTrue)] []].

(** The component; [pathname] is the value of [usePathname()], line 11. *)
Definition Sidebar (navLinks : list NavLink) (pathname : string) : Node :=
  Element "aside" None [("className", PString "sidebar")]
    [Element "div" None [("className", PString "flex side-full flex-col gap-4")]
       [Element "Link" None
          [("href", PString "/"); ("className", PString "sidebar-logo")]
          [Element "Image" None
             [("src", PString "/assets/images/logo-text.svg");
              ("alt", PString "logo");
              ("width", PNumber 180); ("height", PNumber 28)]
             []];
        Element "nav" None [("className", PString "sidebar-nav")]
          [Element "SignedIn" None []
             [Element "ul" None [("className", PString "sidebar-nav_elements")]
                (map (nav_item pathname) (take 6 navLinks));
              Element "ul" None [("className", PString "sidebar-nav_elements")]
                (map (nav_item pathname) (drop 6 navLinks) ++ [user_item])];
           Element "SignedOut" None []
             [Element "Button" None [("asChild", PTrue)]
                [Element "Link" None
                   [("href", PString "/sign-in");
                    ("className", PString "button bg-purple-gradient bg-cover")]
                   [Text "Login"]]]]]].

(** ** Queries on the rendered tree *)

(** The elements of a given type in a tree, in document order. *)
Fixpoint select (t : string) (n : Node) : list Node :=
  match n with
  | Text _ => []
  | Element tag _ _ ch =>
      (if String.eqb tag t then [n] else []) ++ flat_map (select t) ch
  end.

Fixpoint assoc (name : string) (props : list (string * PropValue))
  : option PropValue :=
  match props with
  | [] => None
  | (k, v) :: rest => if String.eqb k name then Some v else assoc name rest
  end.

(** A string attribute of an element. *)
Definition string_attr (name : string) (n : Node) : option string :=
  match n with
  | Text _ => None
  | Element _ _ props _ =>
      match assoc name props with
      | Some (PString s) => Some s
      | _ => None
      end
  end.

Definition key_of (n : Node) : option string :=
  match n with
  | Text _ => None
  | Element _ k _ _ => k
  end.

Definition children_of (n : Node) : list Node :=
  match n with
  | Text _ => []
  | Element _ _ _ ch => ch
  end.

(** The targets of the links of a tree, in document order. *)
Definition hrefs (n : Node) : list string :=
  omap (string_attr "href") (select "Link" n).

(** The class that marks the list item of the current route. *)
Definition active_class : string :=
  "sidebar-nav_element group bg-purple-gradient text-white".

Definition highlighted (n : Node) : bool :=
  match string_attr "className" n with
  | Some c => String.eqb c active_class
  | None => false
  end.

Definition sample_links : list NavLink :=
  [ {| label := "Home"; route := "/"; icon := "/assets/icons/home.svg" |};
    {| label := "Image Restore"; route := "/transformations/add/restore";
       icon := "/assets/icons/image.svg" |};
    {| label := "Generative Fill"; route := "/transformations/add/fill";
       icon := "/assets/icons/stars.svg" |};
    {| label := "Object Remove"; route := "/transformations/add/remove";
       icon := "/assets/icons/scan.svg" |};
    {| label := "Object Recolor"; route := "/transformations/add/recolor";
       icon := "/assets/icons/filter.svg" |};
    {| label := "Background Remove";
       route := "/transformations/add/removeBackground";
       icon := "/assets/icons/camera.svg" |};
    {| label := "Profile"; route := "/profile";
       icon := "/assets/icons/profile.svg" |};
    {| label := "Buy Credits"; route := "/credits";
       icon := "/assets/icons/bag.svg" |} ].

(** ** Examples *)

(** Two calls before the driver answers, then the answer, then both resume. *)
Example two_callers_one_connect :
  run [Call; Call; Fulfil 0 7; Resume 1; Resume 0] (module_load (Some url0))
  = Some {| process_env := Some url0; MONGODB_URL := Some url0;
            cached := {| conn := Some 7; promise := Some 0 |};
            promises := [Fulfilled 7];
            connect_calls := [(url0, connect_options)];
            tasks := [Returned 7; Returned 7] |}.
Proof. reflexivity. Qed.

(** The empty string is falsy: line 157 throws for it as well. *)
Example empty_url_is_missing :
  tasks (world_after [Call] (Some EmptyString)) = [Threw missing_url_error].
Proof. reflexivity. Qed.

(** A rejected attempt is seen by the caller that started it and by the
    callers that come later. *)
Example rejection_seen_by_all :
  tasks (world_after [Call; Reject 0 econnrefused; Call; Resume 0; Resume 1]
           (Some url0))
  = [Threw econnrefused; Threw econnrefused].
Proof. reflexivity. Qed.

Example no_url_no_connect :
  run [Call; SetEnv (Some url0); Call] (module_load None)
  = Some {| process_env := Some url0; MONGODB_URL := None;
            cached := {| conn := None; promise := None |};
            promises := []; connect_calls := [];
            tasks := [Threw missing_url_error; Threw missing_url_error] |}.
Proof. reflexivity. Qed.

(** ** The pieces of connectToDatabase, case by case *)

Lemma assign_promise_same p w :
  promise (cached w) = Some p → assign_promise p w = w.
Proof.
  destruct w as [e u [c q] ps cs ts]; simpl; intros ->; reflexivity.
Qed.

(** The four ways through lines 153-166. *)
Lemma connectToDatabase_cases w :
  (∃ c, conn (cached w) = Some c ∧ connectToDatabase w = (Returned c, w)) ∨
  (conn (cached w) = None ∧ truthy (MONGODB_URL w) = false ∧
   connectToDatabase w = (Threw missing_url_error, w)) ∨
  (∃ url p, conn (cached w) = None ∧ MONGODB_URL w = Some url ∧
     truthy (Some url) = true ∧ promise (cached w) = Some p ∧
     connectToDatabase w = (Awaiting p, w)) ∨
  (∃ url, conn (cached w) = None ∧ MONGODB_URL w = Some url ∧
     truthy (Some url) = true ∧ promise (cached w) = None ∧
     connectToDatabase w =
       (Awaiting (length (promises w)),
        assign_promise (length (promises w))
          (mongoose_connect url connect_options w).2)).
Proof.
  unfold connectToDatabase.
  destruct (conn (cached w)) as [c|] eqn:Hc; [left; eauto|right].
  destruct (MONGODB_URL w) as [url|] eqn:Hu; [|left; auto].
  destruct (truthy (Some url)) eqn:Ht; [right|left; auto].
  destruct (promise (cached w)) as [p|] eqn:Hp.
  - left. exists url, p. rewrite assign_promise_same by done. auto.
  - right. exists url. auto.
Qed.

Lemma step_MONGODB_URL w ev w' :
  step w ev = Some w' → MONGODB_URL w' = MONGODB_URL w.
Proof.
  destruct ev as [|t|p m|p e|v]; simpl.
  - destruct (connectToDatabase_cases w)
      as [(c&_&->)|[(_&_&->)|[(url&p&_&_&_&_&->)|(url&_&_&_&_&->)]]];
      intros [= <-]; reflexivity.
  - destruct (tasks w !! t) as [[p| |]|]; try discriminate.
    unfold connectToDatabase_resume.
    destruct (promises w !! p) as [[|m|e]|]; try discriminate;
      intros [= <-]; reflexivity.
  - unfold settle. destruct (promises w !! p) as [[| |]|]; try discriminate.
    intros [= <-]; reflexivity.
  - unfold settle. destruct (promises w !! p) as [[| |]|]; try discriminate.
    intros [= <-]; reflexivity.
  - intros [= <-]; reflexivity.
Qed.

(** ** The invariant holds in every reachable world *)

Lemma lookup_snoc_inv {A} (l : list A) (x y : A) (i : nat) :
  (l ++ [x]) !! i = Some y → l !! i = Some y ∨ (i = length l ∧ y = x).
Proof.
  rewrite lookup_app_Some. intros [H|[Hle H]]; [by left|right].
  destruct (i - length l) as [|n] eqn:Hn; simpl in H; [|done].
  split; [lia|congruence].
Qed.

Lemma Inv_load env : Inv (module_load env).
Proof. split; simpl; try done; intros ? ?; by rewrite lookup_nil. Qed.

Lemma Inv_call w w' : Inv w → step w Call = Some w' → Inv w'.
Proof.
  intros [Hc Ha Hi Hw Hr Ht]. simpl.
  destruct (connectToDatabase_cases w)
    as [(c&Hcn&->)|[(Hcn&Hu&->)|[(url&p&Hcn&Hu&Htr&Hp&->)|(url&Hcn&Hu&Htr&Hp&->)]]];
    intros [= <-].
  - split; simpl; try done.
    + intros t p [H|[_ [=]]]%lookup_snoc_inv; eauto.
    + intros t m [H|[_ [= ->]]]%lookup_snoc_inv; eauto.
    + intros t e [H|[_ [=]]]%lookup_snoc_inv; eauto.
  - split; simpl; try done.
    + intros t p [H|[_ [=]]]%lookup_snoc_inv; eauto.
    + intros t m [H|[_ [=]]]%lookup_snoc_inv; eauto.
    + intros t e [H|[_ [= ->]]]%lookup_snoc_inv; eauto.
  - split; simpl; try done.
    + intros t q [H|[_ [= ->]]]%lookup_snoc_inv; eauto.
    + intros t m [H|[_ [=]]]%lookup_snoc_inv; eauto.
    + intros t e [H|[_ [=]]]%lookup_snoc_inv; eauto.
  - destruct (Hi Hp) as [Hcalls Hps].
    split; simpl; rewrite ?Hcn, ?Hcalls, ?Hps; simpl; try done.
    + intros p [= <-]. exists url. by rewrite Hu.
    + intros t q [H|[_ [= ->]]]%lookup_snoc_inv; [|done].
      apply Hw in H. congruence.
    + intros t m [H|[_ [=]]]%lookup_snoc_inv.
      apply Hr in H. congruence.
    + intros t e [H|[_ [=]]]%lookup_snoc_inv.
      destruct (Ht _ _ H) as [[Hf _]|(p&Hq&_)]; [|congruence].
      rewrite Hu, Htr in Hf. done.
Qed.

Lemma Inv_resume w t w' : Inv w → step w (Resume t) = Some w' → Inv w'.
Proof.
  intros [Hc Ha Hi Hw Hr Ht]. simpl.
  destruct (tasks w !! t) as [[p| |]|] eqn:Htask; try discriminate.
  unfold connectToDatabase_resume.
  pose proof (Hw _ _ Htask) as Hp.
  destruct (promises w !! p) as [[|m|e]|] eqn:Hpp; try discriminate;
    intros [= <-].
  - split; simpl.
    + intros c [= <-]. eauto.
    + done.
    + intros H. rewrite Hp in H. done.
    + intros t' q [(_&[=]&_)|[_ H]]%list_lookup_insert_Some. eauto.
    + intros t' m' [(_&[= <-]&_)|[_ H]]%list_lookup_insert_Some; [done|].
      apply Hr, Hc in H as (q&Hq&Hm). congruence.
    + intros t' e [(_&[=]&_)|[_ H]]%list_lookup_insert_Some.
      destruct (Ht _ _ H) as [?|(q&Hq&Hrej)]; [by left|right; eauto].
  - split; simpl; try done.
    + intros t' q [(_&[=]&_)|[_ H]]%list_lookup_insert_Some. eauto.
    + intros t' m' [(_&[=]&_)|[_ H]]%list_lookup_insert_Some. eauto.
    + intros t' e' [(_&[= <-]&_)|[_ H]]%list_lookup_insert_Some; eauto.
Qed.

Lemma Inv_settle w p s w' :
  s ≠ Pending → Inv w → settle p s w = Some w' → Inv w'.
Proof.
  intros Hs [Hc Ha Hi Hw Hr Ht]. unfold settle.
  destruct (promises w !! p) as [[| |]|] eqn:Hpp; try discriminate.
  intros [= <-].
  assert (Hkeep : ∀ q st, st ≠ Pending → promises w !! q = Some st →
                          <[p := s]> (promises w) !! q = Some st).
  { intros q st Hst Hq. destruct (decide (p = q)) as [->|Hne].
    - congruence.
    - by rewrite list_lookup_insert_ne. }
  split; simpl; try done.
  - intros c Hcn. destruct (Hc _ Hcn) as (q&Hq&Hf). exists q. split; [done|].
    by apply Hkeep.
  - intros q Hq. destruct (Ha _ Hq) as (url&?&?&?&?&?).
    exists url. by rewrite length_insert.
  - intros Hq. destruct (Hi Hq) as [? Hnil]. rewrite Hnil in Hpp.
    by rewrite lookup_nil in Hpp.
  - intros t e H. destruct (Ht _ _ H) as [?|(q&Hq&Hrej)]; [by left|right].
    exists q. split; [done|]. by apply Hkeep.
Qed.

Lemma Inv_step w ev w' : Inv w → step w ev = Some w' → Inv w'.
Proof.
  destruct ev as [|t|p m|p e|v].
  - apply Inv_call.
  - apply Inv_resume.
  - simpl. by apply Inv_settle.
  - simpl. by apply Inv_settle.
  - intros [Hc Ha Hi Hw Hr Ht] [= <-]. by split.
Qed.

Lemma reachable_Inv w : reachable w → Inv w.
Proof. induction 1; eauto using Inv_load, Inv_step. Qed.

Lemma reachable_run evs w w' : reachable w → run evs w = Some w' → reachable w'.
Proof.
  revert w. induction evs as [|ev evs IH]; intros w Hw; simpl.
  - by intros [= <-].
  - destruct (step w ev) as [w1|] eqn:Hs; [|done].
    intros H. eapply IH; [|done]. by eapply reachable_step.
Qed.

Lemma reachable_world_after evs env : reachable (world_after evs env).
Proof.
  unfold world_after.
  destruct (run evs (module_load env)) as [w|] eqn:Hrun; simpl.
  - eapply reachable_run; [apply reachable_load|done].
  - apply reachable_load.
Qed.

Lemma run_MONGODB_URL evs w w' :
  run evs w = Some w' → MONGODB_URL w' = MONGODB_URL w.
Proof.
  revert w. induction evs as [|ev evs IH]; intros w; simpl.
  - by intros [= <-].
  - destruct (step w ev) as [w1|] eqn:Hs; [|done].
    intros H. rewrite (IH _ H). by eapply step_MONGODB_URL.
Qed.

(** The attempt slot is only ever written with the promise it holds. *)
Lemma step_promise_kept w ev w' p :
  promise (cached w) = Some p → step w ev = Some w' →
  promise (cached w') = Some p.
Proof.
  intros Hp. destruct ev as [|t|q m|q e|v]; simpl.
  - destruct (connectToDatabase_cases w)
      as [(c&_&->)|[(_&_&->)|[(url&p'&_&_&_&_&->)|(url&_&_&_&Hn&_)]]];
      [intros [= <-]..|congruence]; done.
  - destruct (tasks w !! t) as [[p'| |]|]; try discriminate.
    unfold connectToDatabase_resume.
    destruct (promises w !! p') as [[|m|e]|]; try discriminate;
      intros [= <-]; done.
  - unfold settle. destruct (promises w !! q) as [[| |]|]; try discriminate.
    by intros [= <-].
  - unfold settle. destruct (promises w !! q) as [[| |]|]; try discriminate.
    by intros [= <-].
  - by intros [= <-].
Qed.

(** A step leaves the log of driver calls alone, unless it is a call that
    found no client and no recorded attempt. *)
Lemma step_connect_calls w ev w' :
  step w ev = Some w' →
  connect_calls w' = connect_calls w ∨
  (ev = Call ∧ conn (cached w) = None ∧ promise (cached w) = None ∧
   ∃ uri, MONGODB_URL w = Some uri ∧ truthy (Some uri) = true ∧
     connect_calls w' = connect_calls w ++ [(uri, connect_options)] ∧
     promise (cached w') = Some (length (promises w)) ∧
     promises w' !! length (promises w) = Some Pending ∧
     tasks w' = tasks w ++ [Awaiting (length (promises w))]).
Proof.
  destruct ev as [|t|q m|q e|v]; simpl.
  - destruct (connectToDatabase_cases w)
      as [(c&_&->)|[(_&_&->)|[(url&p'&_&_&_&_&->)|(url&Hc&Hu&Ht&Hn&->)]]];
      intros [= <-]; [by left..|right].
    repeat split; try done. exists url. repeat split; try done.
    simpl. by rewrite lookup_app_r, Nat.sub_diag.
  - destruct (tasks w !! t) as [[p'| |]|]; try discriminate.
    unfold connectToDatabase_resume.
    destruct (promises w !! p') as [[|m|e]|]; try discriminate;
      intros [= <-]; by left.
  - unfold settle. destruct (promises w !! q) as [[| |]|]; try discriminate.
    intros [= <-]; by left.
  - unfold settle. destruct (promises w !! q) as [[| |]|]; try discriminate.
    intros [= <-]; by left.
  - intros [= <-]; by left.
Qed.

(** ** Claims *)

(** C1. At-most-once connect: in every world a process can reach, whatever
    the calls and however they interleave at the await, [mongoose.connect]
    has been invoked at most once.  The step that invokes it records the new
    pending promise in the cache slot before it suspends, and a slot that
    holds a promise holds the same promise after every later step. *)
Theorem connect_at_most_once w :
  reachable w →
  length (connect_calls w) ≤ 1 ∧
  (∀ ev w', step w ev = Some w' →
     length (connect_calls w') = S (length (connect_calls w)) →
     ev = Call ∧ promise (cached w) = None ∧
     promise (cached w') = Some (length (promises w)) ∧
     promises w' !! length (promises w) = Some Pending ∧
     tasks w' = tasks w ++ [Awaiting (length (promises w))]) ∧
  (∀ p ev w', promise (cached w) = Some p → step w ev = Some w' →
     promise (cached w') = Some p).
Proof.
  intros Hw. apply reachable_Inv in Hw as [Hc Ha Hi _ _ _].
  split; [|split].
  - destruct (promise (cached w)) as [p|] eqn:Hp.
    + destruct (Ha _ eq_refl) as (url&_&_&->&_). simpl. lia.
    + destruct (Hi eq_refl) as [-> _]. simpl. lia.
  - intros ev w' Hs Hlen.
    destruct (step_connect_calls _ _ _ Hs)
      as [Heq|(->&_&Hn&uri&_&_&_&Hp&Hpend&Hts)].
    + rewrite Heq in Hlen. lia.
    + done.
  - intros p ev w' Hp Hs. by eapply step_promise_kept.
Qed.

Lemma connect_at_most_once_witness :
  reachable (world_after [Call; Call; Call] (Some url0)) ∧
  length (connect_calls (world_after [Call; Call; Call] (Some url0))) ≤ 1.
Proof.
  split; [apply reachable_world_after|].
  apply (connect_at_most_once (world_after [Call; Call; Call] (Some url0))).
  apply reachable_world_after.
Defined.

Lemma assign_conn_same m w :
  conn (cached w) = Some m → assign_conn m w = w.
Proof.
  destruct w as [e u [c q] ps cs ts]; simpl; intros ->; reflexivity.
Qed.

(** Resuming an invocation once the client is cached: line 166 stores the
    value the cache already holds. *)
Lemma resume_when_connected w t p c :
  Inv w → conn (cached w) = Some c → tasks w !! t = Some (Awaiting p) →
  step w (Resume t) = Some (set_tasks (<[t := Returned c]> (tasks w)) w).
Proof.
  intros HI Hc Ht. simpl. rewrite Ht. unfold connectToDatabase_resume.
  destruct (inv_conn _ HI _ Hc) as (q&Hq&Hf).
  rewrite (inv_awaiting _ HI _ _ Ht) in Hq. injection Hq as ->.
  rewrite Hf. by rewrite assign_conn_same.
Qed.

Lemma step_conn_kept w ev w' c :
  Inv w → conn (cached w) = Some c → step w ev = Some w' →
  conn (cached w') = Some c.
Proof.
  intros HI Hc. destruct ev as [|t|q m|q e|v].
  - simpl. unfold connectToDatabase. rewrite Hc. by intros [= <-].
  - destruct (tasks w !! t) as [[p| |]|] eqn:Ht.
    + rewrite (resume_when_connected _ _ _ _ HI Hc Ht). by intros [= <-].
    + simpl. by rewrite Ht.
    + simpl. by rewrite Ht.
    + simpl. by rewrite Ht.
  - simpl. unfold settle.
    destruct (promises w !! q) as [[| |]|]; try discriminate.
    by intros [= <-].
  - simpl. unfold settle.
    destruct (promises w !! q) as [[| |]|]; try discriminate.
    by intros [= <-].
  - by intros [= <-].
Qed.

Lemma run_conn_kept evs w w' c :
  reachable w → conn (cached w) = Some c → run evs w = Some w' →
  conn (cached w') = Some c.
Proof.
  revert w. induction evs as [|ev evs IH]; intros w Hw Hc; simpl.
  - by intros [= <-].
  - destruct (step w ev) as [w1|] eqn:Hs; [|done].
    apply IH.
    + by eapply reachable_step.
    + eapply step_conn_kept; eauto using reachable_Inv.
Qed.

(** C2. Cached fast path: once the cache holds a client [c], every later
    call, after any further events, returns [c] itself at once: the
    invocation finishes in the step of the call, the world is otherwise as it
    was (no call to the driver), and the outcome is read off the cache record
    alone, whatever the configured connection string is. *)
Theorem cached_fast_path w c :
  reachable w → conn (cached w) = Some c →
  ∀ evs w', run evs w = Some w' →
    conn (cached w') = Some c ∧
    step w' Call = Some (set_tasks (tasks w' ++ [Returned c]) w') ∧
    ∀ v, cached v = cached w' → connectToDatabase v = (Returned c, v).
Proof.
  intros Hw Hc evs w' Hrun.
  pose proof (run_conn_kept _ _ _ _ Hw Hc Hrun) as Hc'.
  split; [done|]. split.
  - simpl. unfold connectToDatabase. by rewrite Hc'.
  - intros v Hv. unfold connectToDatabase. by rewrite Hv, Hc'.
Qed.

Lemma cached_fast_path_witness :
  step (world_after [Call; Fulfil 0 7; Resume 0; SetEnv None] (Some url0)) Call
  = Some (set_tasks [Returned 7; Returned 7]
            (world_after [Call; Fulfil 0 7; Resume 0; SetEnv None] (Some url0))).
Proof.
  apply (cached_fast_path (world_after [Call; Fulfil 0 7; Resume 0] (Some url0)) 7
           (reachable_world_after _ _) eq_refl [SetEnv None]
           (world_after [Call; Fulfil 0 7; Resume 0; SetEnv None] (Some url0))
           eq_refl).
Defined.

(** C3. Missing configuration: when the connection string is absent as the
    module loads, then after any events every invocation so far has failed
    with the error 'Missing MONGODB_URL', the driver has never been called,
    and the next call fails with that error too, leaving the world as it
    was. *)
Theorem missing_url_always_fails evs w :
  run evs (module_load None) = Some w →
  connect_calls w = [] ∧
  (∀ t k, tasks w !! t = Some k → k = Threw missing_url_error) ∧
  step w Call = Some (set_tasks (tasks w ++ [Threw missing_url_error]) w).
Proof.
  intros Hrun.
  pose proof (run_MONGODB_URL _ _ _ Hrun) as Hu. simpl in Hu.
  assert (HI : Inv w).
  { apply reachable_Inv. eapply reachable_run; [apply reachable_load|done]. }
  assert (Hp : promise (cached w) = None).
  { destruct (promise (cached w)) as [p|] eqn:Hp; [|done].
    destruct (inv_attempt _ HI _ Hp) as (url&Hurl&_). congruence. }
  assert (Hc : conn (cached w) = None).
  { destruct (conn (cached w)) as [c|] eqn:Hc; [|done].
    destruct (inv_conn _ HI _ Hc) as (p&Hq&_). congruence. }
  split; [apply (inv_idle _ HI Hp)|]. split.
  - intros t [p|m|e] Ht.
    + apply (inv_awaiting _ HI) in Ht. congruence.
    + apply (inv_returned _ HI) in Ht. congruence.
    + destruct (inv_threw _ HI _ _ Ht) as [[_ ->]|(p&Hq&_)]; [done|congruence].
  - simpl. unfold connectToDatabase. by rewrite Hc, Hu.
Qed.

Lemma missing_url_always_fails_witness :
  tasks (world_after [Call; SetEnv (Some url0); Call] None)
  = [Threw missing_url_error; Threw missing_url_error] ∧
  connect_calls (world_after [Call; SetEnv (Some url0); Call] None) = [].
Proof.
  split; [reflexivity|].
  apply (missing_url_always_fails [Call; SetEnv (Some url0); Call]
           (world_after [Call; SetEnv (Some url0); Call] None) eq_refl).
Defined.

(** Once the recorded attempt is rejected, no step changes the cache, the
    promises or the log of driver calls. *)
Lemma step_after_rejection w ev w' p e :
  Inv w → promise (cached w) = Some p →
  promises w !! p = Some (Rejected e) → step w ev = Some w' →
  cached w' = cached w ∧ promises w' = promises w ∧
  connect_calls w' = connect_calls w.
Proof.
  intros HI Hp Hrej.
  assert (Hc : conn (cached w) = None).
  { destruct (conn (cached w)) as [c|] eqn:Hc; [|done].
    destruct (inv_conn _ HI _ Hc) as (q&Hq&Hf). congruence. }
  assert (Hsettle : ∀ q s, settle q s w = None).
  { intros q s. unfold settle.
    destruct (inv_attempt _ HI _ Hp) as (_&_&_&_&->&Hlen).
    destruct q as [|q].
    - by rewrite Hrej.
    - rewrite lookup_ge_None_2; [done|lia]. }
  destruct ev as [|t|q m|q e'|v]; simpl.
  - destruct (connectToDatabase_cases w)
      as [(c&?&_)|[(_&_&->)|[(url&p'&_&_&_&_&->)|(url&_&_&_&Hn&_)]]];
      [congruence|intros [= <-]..|congruence]; done.
  - destruct (tasks w !! t) as [[p'| |]|] eqn:Ht; try discriminate.
    rewrite (inv_awaiting _ HI _ _ Ht) in Hp. injection Hp as ->.
    unfold connectToDatabase_resume. rewrite Hrej. by intros [= <-].
  - by rewrite Hsettle.
  - by rewrite Hsettle.
  - by intros [= <-].
Qed.

Lemma run_after_rejection evs w w' p e :
  reachable w → promise (cached w) = Some p →
  promises w !! p = Some (Rejected e) → run evs w = Some w' →
  cached w' = cached w ∧ promises w' = promises w ∧
  connect_calls w' = connect_calls w.
Proof.
  revert w. induction evs as [|ev evs IH]; intros w Hw Hp Hrej; simpl.
  - by intros [= <-].
  - destruct (step w ev) as [w1|] eqn:Hs; [|done]. intros Hrun.
    destruct (step_after_rejection _ _ _ _ _ (reachable_Inv _ Hw) Hp Hrej Hs)
      as (Hc1&Hp1&Hl1).
    destruct (IH w1) as (Hc2&Hp2&Hl2); try done.
    + by eapply reachable_step.
    + by rewrite Hc1.
    + by rewrite Hp1.
    + by rewrite Hc2, Hp2, Hl2.
Qed.

Lemma insert_snoc {A} (l : list A) (x y : A) :
  <[length l := y]> (l ++ [x]) = l ++ [y].
Proof. rewrite insert_app_r_alt by lia. by rewrite Nat.sub_diag. Qed.

(** C4. A failed attempt is never cleared: when the recorded attempt has
    been rejected with [e], the cached client is null, and after any further
    events the cache record, the rejected promise and the log of driver calls
    are what they were; a new call then suspends on that same promise and,
    once resumed, fails with [e], the driver not being called again. *)
Theorem failed_attempt_is_kept w p e :
  reachable w → promise (cached w) = Some p →
  promises w !! p = Some (Rejected e) →
  conn (cached w) = None ∧
  ∀ evs w', run evs w = Some w' →
    cached w' = cached w ∧
    promises w' !! p = Some (Rejected e) ∧
    connect_calls w' = connect_calls w ∧
    step w' Call = Some (set_tasks (tasks w' ++ [Awaiting p]) w') ∧
    run [Call; Resume (length (tasks w'))] w'
      = Some (set_tasks (tasks w' ++ [Threw e]) w').
Proof.
  intros Hw Hp Hrej.
  pose proof (reachable_Inv _ Hw) as HI.
  assert (Hnone : ∀ v, Inv v → cached v = cached w → promises v = promises w →
                       conn (cached v) = None).
  { intros v Hv Hcv Hpv. destruct (conn (cached v)) as [c|] eqn:Hc; [|done].
    destruct (inv_conn _ Hv _ Hc) as (q&Hq&Hf).
    rewrite Hcv in Hq. rewrite Hpv in Hf. congruence. }
  split; [by apply Hnone|].
  intros evs w' Hrun.
  destruct (run_after_rejection _ _ _ _ _ Hw Hp Hrej Hrun) as (Hc'&Hp'&Hl').
  assert (HI' : Inv w') by (eapply reachable_Inv, reachable_run; eauto).
  assert (Hcall : step w' Call = Some (set_tasks (tasks w' ++ [Awaiting p]) w')).
  { simpl.
    destruct (connectToDatabase_cases w')
      as [(c&Hc&_)|[(_&Hf&_)|[(url&q&_&_&_&Hq&->)|(url&_&_&_&Hn&_)]]].
    - rewrite (Hnone w') in Hc; done.
    - destruct (inv_attempt _ HI' p) as (url&Hu&Ht&_); [by rewrite Hc'|].
      rewrite Hu, Ht in Hf. done.
    - rewrite Hc', Hp in Hq. by injection Hq as <-.
    - rewrite Hc', Hp in Hn. done. }
  repeat split; try done.
  - by rewrite Hp'.
  - cbn [run]. rewrite Hcall.
    cbn [step set_tasks tasks promises]. rewrite lookup_app_r by lia.
    rewrite Nat.sub_diag. simpl. unfold connectToDatabase_resume. simpl.
    rewrite Hp', Hrej. simpl. by rewrite insert_snoc.
Qed.

Lemma failed_attempt_is_kept_witness :
  run [Call; Resume 2]
    (world_after [Call; Reject 0 econnrefused; Resume 0; Call] (Some url0))
  = Some (set_tasks
            [Threw econnrefused; Awaiting 0; Threw econnrefused]
            (world_after [Call; Reject 0 econnrefused; Resume 0; Call]
               (Some url0))).
Proof.
  destruct (failed_attempt_is_kept
              (world_after [Call; Reject 0 econnrefused] (Some url0))
              0 econnrefused (reachable_world_after _ _) eq_refl eq_refl)
    as [_ H].
  apply (H [Resume 0; Call]
           (world_after [Call; Reject 0 econnrefused; Resume 0; Call]
              (Some url0))
           eq_refl).
Defined.

(** C5. Verbatim error propagation: an invocation suspended on an attempt
    that the driver rejected with [e] finishes, when resumed, by throwing [e]
    itself, with no other change to the world (no retry, no new error); and
    with a connection string configured, every error an invocation has thrown
    is the rejection value of the recorded attempt. *)
Theorem rejection_propagates_verbatim w :
  reachable w →
  (∀ t p e, tasks w !! t = Some (Awaiting p) →
     promises w !! p = Some (Rejected e) →
     step w (Resume t) = Some (set_tasks (<[t := Threw e]> (tasks w)) w)) ∧
  (∀ t e, tasks w !! t = Some (Threw e) → truthy (MONGODB_URL w) = true →
     ∃ p, promise (cached w) = Some p ∧ promises w !! p = Some (Rejected e)).
Proof.
  intros Hw. split.
  - intros t p e Ht Hrej. simpl. rewrite Ht.
    unfold connectToDatabase_resume. by rewrite Hrej.
  - intros t e Ht Hu.
    destruct (inv_threw _ (reachable_Inv _ Hw) _ _ Ht) as [[Hf _]|H]; [|done].
    congruence.
Qed.

Lemma rejection_propagates_verbatim_witness :
  step (world_after [Call; Call; Reject 0 econnrefused] (Some url0)) (Resume 1)
  = Some (set_tasks [Awaiting 0; Threw econnrefused]
            (world_after [Call; Call; Reject 0 econnrefused] (Some url0))).
Proof.
  destruct (rejection_propagates_verbatim
              (world_after [Call; Call; Reject 0 econnrefused] (Some url0))
              (reachable_world_after _ _)) as [H _].
  apply (H 1 0 econnrefused eq_refl eq_refl).
Defined.

(** C6. The client slot keeps its client: the slot is null as long as the
    driver has fulfilled no promise; once it holds a client [c] it holds [c]
    after every further sequence of events; and an invocation that was
    suspended before the client was stored returns [c] when resumed, its
    assignment of line 166 leaving the cache record as it is. *)
Theorem conn_never_reassigned w :
  reachable w →
  ((∀ p m, promises w !! p ≠ Some (Fulfilled m)) → conn (cached w) = None) ∧
  ∀ c, conn (cached w) = Some c →
    (∀ evs w', run evs w = Some w' → conn (cached w') = Some c) ∧
    (∀ t p, tasks w !! t = Some (Awaiting p) →
       step w (Resume t) = Some (set_tasks (<[t := Returned c]> (tasks w)) w)).
Proof.
  intros Hw. pose proof (reachable_Inv _ Hw) as HI. split.
  - intros Hno. destruct (conn (cached w)) as [c|] eqn:Hc; [|done].
    destruct (inv_conn _ HI _ Hc) as (p&_&Hf). by apply Hno in Hf.
  - intros c Hc. split.
    + intros evs w'. by apply run_conn_kept.
    + intros t p. by apply resume_when_connected.
Qed.

Lemma conn_never_reassigned_witness :
  step (world_after [Call; Call; Fulfil 0 7; Resume 0] (Some url0)) (Resume 1)
  = Some (set_tasks [Returned 7; Returned 7]
            (world_after [Call; Call; Fulfil 0 7; Resume 0] (Some url0))).
Proof.
  destruct (conn_never_reassigned
              (world_after [Call; Call; Fulfil 0 7; Resume 0] (Some url0))
              (reachable_world_after _ _)) as [_ H].
  destruct (H 7 eq_refl) as [_ Hresume].
  apply (Hresume 1 0 eq_refl).
Defined.

(** C7. Connect options: every call made to the driver carries the
    configured connection string and the options record with database name
    'Imaginify' and command buffering off; and the step that starts an
    attempt appends exactly that call to the log. *)
Theorem connect_arguments w :
  reachable w →
  (∀ uri opts, (uri, opts) ∈ connect_calls w →
     MONGODB_URL w = Some uri ∧
     dbName opts = "Imaginify" ∧ bufferCommands opts = false) ∧
  (∀ ev w', step w ev = Some w' → connect_calls w' ≠ connect_calls w →
     ∃ uri, MONGODB_URL w = Some uri ∧
       connect_calls w' = connect_calls w ++
         [(uri, {| dbName := "Imaginify"; bufferCommands := false |})]).
Proof.
  intros Hw. pose proof (reachable_Inv _ Hw) as HI. split.
  - intros uri opts Hin.
    destruct (promise (cached w)) as [p|] eqn:Hp.
    + destruct (inv_attempt _ HI _ Hp) as (url&Hu&_&Hcalls&_).
      rewrite Hcalls in Hin. apply list_elem_of_singleton in Hin.
      injection Hin as -> ->. done.
    + destruct (inv_idle _ HI Hp) as [Hcalls _]. rewrite Hcalls in Hin.
      by apply not_elem_of_nil in Hin.
  - intros ev w' Hs Hne.
    destruct (step_connect_calls _ _ _ Hs)
      as [Heq|(_&_&_&uri&Hu&_&Hcalls&_)]; [done|].
    exists uri. done.
Qed.

Lemma connect_arguments_witness :
  MONGODB_URL (world_after [Call; Call] (Some url0)) = Some url0 ∧
  dbName connect_options = "Imaginify" ∧
  bufferCommands connect_options = false.
Proof.
  destruct (connect_arguments (world_after [Call; Call] (Some url0))
              (reachable_world_after _ _)) as [H _].
  apply (H url0 connect_options). apply list_elem_of_here.
Defined.

(** C8. Atomicity of the configuration error: a call that throws 'Missing
    MONGODB_URL' leaves the whole world, and so the cache record, as it was;
    and in a reachable world the record is then still the initial one, with
    both fields null. *)
Theorem config_error_leaves_cache w w' :
  reachable w →
  connectToDatabase w = (Threw missing_url_error, w') →
  w' = w ∧
  conn (cached w') = conn (cached w) ∧
  promise (cached w') = promise (cached w) ∧
  cached w' = init_cached None.
Proof.
  intros Hw Hcall. pose proof (reachable_Inv _ Hw) as HI.
  destruct (connectToDatabase_cases w)
    as [(c&_&H)|[(Hc&Hf&H)|[(url&q&_&_&_&_&H)|(url&_&_&_&_&H)]]];
    rewrite H in Hcall; try discriminate.
  injection Hcall as <-. repeat split.
  assert (Hp : promise (cached w) = None).
  { destruct (promise (cached w)) as [p|] eqn:Hp; [|done].
    destruct (inv_attempt _ HI _ Hp) as (url&Hu&Ht&_).
    rewrite Hu, Ht in Hf. done. }
  destruct w as [e u [c q] ps cs ts]. simpl in *. by subst.
Qed.

Lemma config_error_leaves_cache_witness :
  cached (world_after [Call; SetEnv (Some url0)] None) = init_cached None.
Proof.
  apply (config_error_leaves_cache
           (world_after [Call; SetEnv (Some url0)] None)
           (world_after [Call; SetEnv (Some url0)] None)
           (reachable_world_after _ _) eq_refl).
Defined.

(** C9. Cache-record invariant: in every reachable world, a non-null cached
    client comes with a recorded attempt, and the client is the value that
    attempt was fulfilled with. *)
Theorem cache_record_invariant w c :
  reachable w → conn (cached w) = Some c →
  ∃ p, promise (cached w) = Some p ∧ promises w !! p = Some (Fulfilled c).
Proof. intros Hw. apply inv_conn. by apply reachable_Inv. Qed.

Lemma cache_record_invariant_witness :
  ∃ p, promise (cached (world_after [Call; Fulfil 0 7; Resume 0] (Some url0)))
       = Some p ∧
       promises (world_after [Call; Fulfil 0 7; Resume 0] (Some url0)) !! p
       = Some (Fulfilled 7).
Proof.
  apply (cache_record_invariant
           (world_after [Call; Fulfil 0 7; Resume 0] (Some url0)) 7
           (reachable_world_after _ _) eq_refl).
Defined.

(** ** The environment after load *)

Lemma connectToDatabase_set_process_env v w :
  connectToDatabase (set_process_env v w)
  = ((connectToDatabase w).1, set_process_env v (connectToDatabase w).2).
Proof.
  destruct (connectToDatabase_cases w)
    as [(c&Hc&H)|[(Hc&Hf&H)|[(url&q&Hc&Hu&Ht&Hq&H)|(url&Hc&Hu&Ht&Hq&H)]]];
    rewrite H; unfold connectToDatabase; simpl;
    rewrite ?Hc, ?Hq; try done.
  - destruct (MONGODB_URL w) as [url|]; [|done].
    simpl in Hf. by rewrite Hf.
  - rewrite Hu. simpl in Ht. rewrite Ht.
    by rewrite assign_promise_same.
  - rewrite Hu. simpl in Ht. rewrite Ht.
    unfold mongoose_connect, assign_promise. simpl. by rewrite Hu.
Qed.

Lemma step_set_process_env v w ev :
  is_SetEnv ev = false →
  step (set_process_env v w) ev = set_process_env v <$> step w ev.
Proof.
  destruct ev as [|t|p m|p e|u]; simpl; try done; intros _.
  - rewrite connectToDatabase_set_process_env.
    by destruct (connectToDatabase w) as [k w1].
  - destruct (tasks w !! t) as [[p| |]|]; try done.
    unfold connectToDatabase_resume. simpl.
    by destruct (promises w !! p) as [[|m|e]|].
  - unfold settle. simpl. by destruct (promises w !! p) as [[| |]|].
  - unfold settle. simpl. by destruct (promises w !! p) as [[| |]|].
Qed.

Lemma run_observe evs w :
  observe <$> run evs w = observe <$> run (erase_env evs) (observe w).
Proof.
  revert w. induction evs as [|ev evs IH]; intros w; [done|].
  destruct (is_SetEnv ev) eqn:Hev.
  - destruct ev; try discriminate. unfold erase_env.
    rewrite filter_cons_False by (simpl; congruence).
    exact (IH (set_process_env v w)).
  - unfold erase_env. rewrite filter_cons_True by done.
    fold (erase_env evs). simpl.
    unfold observe at 3. rewrite step_set_process_env by done.
    destruct (step w ev) as [w1|]; simpl; [apply IH|done].
Qed.

(** The connection string is the one of the load, whatever is written to
    the environment afterwards. *)
Lemma run_from_load_MONGODB_URL env evs w :
  run evs (module_load env) = Some w → MONGODB_URL w = env.
Proof. intros Hrun. by rewrite (run_MONGODB_URL _ _ _ Hrun). Qed.

Lemma connect_calls_uri w uri opts :
  Inv w → (uri, opts) ∈ connect_calls w → MONGODB_URL w = Some uri.
Proof.
  intros HI Hin. destruct (promise (cached w)) as [p|] eqn:Hp.
  - destruct (inv_attempt _ HI _ Hp) as (url&Hu&_&Hcalls&_).
    rewrite Hcalls in Hin. apply list_elem_of_singleton in Hin.
    by injection Hin as -> _.
  - destruct (inv_idle _ HI Hp) as [Hcalls _]. rewrite Hcalls in Hin.
    by apply not_elem_of_nil in Hin.
Qed.

Lemma tasks_without_url w t k :
  Inv w → truthy (MONGODB_URL w) = false → tasks w !! t = Some k →
  k = Threw missing_url_error.
Proof.
  intros HI Hu Ht.
  assert (Hp : promise (cached w) = None).
  { destruct (promise (cached w)) as [p|] eqn:Hp; [|done].
    destruct (inv_attempt _ HI _ Hp) as (url&Hurl&Htr&_).
    rewrite Hurl, Htr in Hu. done. }
  destruct k as [p|m|e].
  - apply (inv_awaiting _ HI) in Ht. congruence.
  - apply (inv_returned _ HI), (inv_conn _ HI) in Ht as (p&Hq&_). congruence.
  - destruct (inv_threw _ HI _ _ Ht) as [[_ ->]|(p&Hq&_)]; [done|congruence].
Qed.

(** Unsetting the variable before the call changes nothing: the call still
    connects, with the string read at load. *)
Example call_uses_the_string_of_the_load :
  run [SetEnv None; Call] (module_load (Some url0))
  = Some {| process_env := None; MONGODB_URL := Some url0;
            cached := {| conn := None; promise := Some 0 |};
            promises := [Pending];
            connect_calls := [(url0, connect_options)];
            tasks := [Awaiting 0] |}.
Proof. reflexivity. Qed.

(** C10. The configuration is read once, when the module loads.  Loading
    captures the value the environment variable has at that moment in the
    module constant, and after any events the constant still is that value:
    every call made to the driver carries it, and when it is falsy every
    invocation has failed with the configuration error, whatever was written
    to the variable after the load.  Two runs from the same load under
    schedules that differ only in the writes to the variable (so that calls
    are made under different current values) either both get stuck or end in
    worlds that agree on everything but the current value of the variable:
    same cache, same outcome of every invocation, same calls to the driver
    with the same arguments.  The same holds from any two worlds that agree
    on everything but the current value of the variable. *)
Theorem env_after_load_is_ignored env evs1 evs2 :
  erase_env evs1 = erase_env evs2 →
  (MONGODB_URL (module_load env) = env ∧
   process_env (module_load env) = env) ∧
  (∀ w, run evs1 (module_load env) = Some w →
     MONGODB_URL w = env ∧
     (∀ uri opts, (uri, opts) ∈ connect_calls w →
        env = Some uri ∧ opts = connect_options) ∧
     (truthy env = false →
      ∀ t k, tasks w !! t = Some k → k = Threw missing_url_error)) ∧
  observe <$> run evs1 (module_load env)
  = observe <$> run evs2 (module_load env) ∧
  (∀ w1 w2, observe w1 = observe w2 →
     observe <$> run evs1 w1 = observe <$> run evs2 w2).
Proof.
  intros Hevs. split; [done|]. split; [|split].
  - intros w Hrun.
    pose proof (run_from_load_MONGODB_URL _ _ _ Hrun) as Hu.
    assert (HI : Inv w).
    { apply reachable_Inv. eapply reachable_run; [apply reachable_load|done]. }
    split; [done|]. split.
    + intros uri opts Hin. split.
      * rewrite <- Hu. by eapply connect_calls_uri.
      * destruct (promise (cached w)) as [p|] eqn:Hp.
        -- destruct (inv_attempt _ HI _ Hp) as (url&_&_&Hcalls&_).
           rewrite Hcalls in Hin. apply list_elem_of_singleton in Hin.
           by injection Hin as _ ->.
        -- destruct (inv_idle _ HI Hp) as [Hcalls _]. rewrite Hcalls in Hin.
           by apply not_elem_of_nil in Hin.
    + intros Hf t k Ht. eapply tasks_without_url; [done| |done].
      by rewrite Hu.
  - rewrite (run_observe evs1), (run_observe evs2). by rewrite Hevs.
  - intros w1 w2 Hw. rewrite (run_observe evs1), (run_observe evs2).
    by rewrite Hw, Hevs.
Qed.

Lemma env_after_load_is_ignored_witness :
  (erase_env [SetEnv None; Call] = erase_env [Call] ∧
   observe <$> run [SetEnv None; Call] (module_load (Some url0))
   = observe <$> run [Call] (module_load (Some url0)) ∧
   MONGODB_URL (world_after [SetEnv None; Call] (Some url0)) = Some url0 ∧
   (url0, connect_options)
     ∈ connect_calls (world_after [SetEnv None; Call] (Some url0)) ∧
   (Some url0 = Some url0 ∧ connect_options = connect_options)) ∧
  (erase_env [SetEnv (Some url0); Call] = erase_env [Call] ∧
   observe <$> run [SetEnv (Some url0); Call] (module_load None)
   = observe <$> run [Call] (module_load None) ∧
   tasks (world_after [SetEnv (Some url0); Call] None) !! 0
   = Some (Threw missing_url_error) ∧
   Threw missing_url_error = Threw missing_url_error).
Proof.
  destruct (env_after_load_is_ignored (Some url0) [SetEnv None; Call] [Call]
              eq_refl) as (_&H1&H2&_).
  destruct (H1 (world_after [SetEnv None; Call] (Some url0)) eq_refl)
    as (Hu&Hargs&_).
  destruct (env_after_load_is_ignored None [SetEnv (Some url0); Call] [Call]
              eq_refl) as (_&G1&G2&_).
  destruct (G1 (world_after [SetEnv (Some url0); Call] None) eq_refl)
    as (_&_&Gt).
  split.
  - split; [reflexivity|]. split; [exact H2|]. split; [exact Hu|].
    split; [apply list_elem_of_here|].
    apply (Hargs url0 connect_options). apply list_elem_of_here.
  - split; [reflexivity|]. split; [exact G2|]. split; [reflexivity|].
    apply (Gt eq_refl 0 (Threw missing_url_error) eq_refl).
Defined.

(** * Further properties of the connection cache *)

(** ** Outcomes of the invocations *)

Lemma url_of_attempt w p :
  Inv w → promise (cached w) = Some p → truthy (MONGODB_URL w) = true.
Proof.
  intros HI Hp. destruct (inv_attempt _ HI _ Hp) as (url&->&Ht&_). done.
Qed.

(** All invocations that have finished in a process finished the same way:
    with the same client, or with the same error. *)
Theorem finished_invocations_agree w t1 t2 k1 k2 :
  reachable w →
  tasks w !! t1 = Some k1 → tasks w !! t2 = Some k2 →
  finished k1 = true → finished k2 = true →
  k1 = k2.
Proof.
  intros Hw H1 H2 Hf1 Hf2. pose proof (reachable_Inv _ Hw) as HI.
  assert (Hthrew : ∀ t e, tasks w !! t = Some (Threw e) →
            conn (cached w) = None ∧
            ((promise (cached w) = None ∧ e = missing_url_error) ∨
             ∃ p, promise (cached w) = Some p ∧
                  promises w !! p = Some (Rejected e))).
  { intros t e Ht.
    destruct (inv_threw _ HI _ _ Ht) as [[Hu ->]|(p&Hp&Hrej)].
    - assert (Hp : promise (cached w) = None).
      { destruct (promise (cached w)) as [p|] eqn:Hp; [|done].
        rewrite (url_of_attempt _ _ HI Hp) in Hu. done. }
      split; [|by left].
      destruct (conn (cached w)) as [c|] eqn:Hc; [|done].
      destruct (inv_conn _ HI _ Hc) as (q&Hq&_). congruence.
    - split; [|right; eauto].
      destruct (conn (cached w)) as [c|] eqn:Hc; [|done].
      destruct (inv_conn _ HI _ Hc) as (q&Hq&Hful). congruence. }
  destruct k1 as [p1|m1|e1], k2 as [p2|m2|e2]; try discriminate.
  - apply (inv_returned _ HI) in H1, H2. congruence.
  - apply (inv_returned _ HI) in H1. apply Hthrew in H2 as [H2 _]. congruence.
  - apply (inv_returned _ HI) in H2. apply Hthrew in H1 as [H1 _]. congruence.
  - destruct (Hthrew _ _ H1) as [_ [[Hn1 ->]|(q1&Hq1&Hr1)]],
      (Hthrew _ _ H2) as [_ [[Hn2 ->]|(q2&Hq2&Hr2)]]; congruence.
Qed.

Lemma finished_invocations_agree_witness :
  Threw econnrefused = Threw econnrefused.
Proof.
  apply (finished_invocations_agree
           (world_after [Call; Call; Reject 0 econnrefused; Resume 1; Resume 0]
              (Some url0))
           0 1 (Threw econnrefused) (Threw econnrefused)
           (reachable_world_after _ _) eq_refl eq_refl eq_refl eq_refl).
Defined.

(** While the recorded attempt is pending nobody has a result: the client
    slot is null, every invocation made so far is suspended on that attempt,
    and none of them can be resumed. *)
Theorem pending_attempt_suspends_all w p :
  reachable w →
  promise (cached w) = Some p → promises w !! p = Some Pending →
  conn (cached w) = None ∧
  (∀ t k, tasks w !! t = Some k → k = Awaiting p) ∧
  (∀ t, step w (Resume t) = None).
Proof.
  intros Hw Hp Hpend. pose proof (reachable_Inv _ Hw) as HI.
  assert (Hc : conn (cached w) = None).
  { destruct (conn (cached w)) as [c|] eqn:Hc; [|done].
    destruct (inv_conn _ HI _ Hc) as (q&Hq&Hful). congruence. }
  assert (Hall : ∀ t k, tasks w !! t = Some k → k = Awaiting p).
  { intros t [q|m|e] Ht.
    - apply (inv_awaiting _ HI) in Ht. congruence.
    - apply (inv_returned _ HI) in Ht. congruence.
    - destruct (inv_threw _ HI _ _ Ht) as [[Hu _]|(q&Hq&Hrej)].
      + rewrite (url_of_attempt _ _ HI Hp) in Hu. done.
      + congruence. }
  repeat split; try done.
  intros t. simpl. destruct (tasks w !! t) as [k|] eqn:Ht; [|done].
  rewrite (Hall _ _ Ht). unfold connectToDatabase_resume. by rewrite Hpend.
Qed.

Lemma pending_attempt_suspends_all_witness :
  step (world_after [Call; Call] (Some url0)) (Resume 1) = None.
Proof.
  apply (pending_attempt_suspends_all (world_after [Call; Call] (Some url0)) 0
           (reachable_world_after _ _) eq_refl eq_refl).
Defined.

(** Once the driver has answered, every invocation suspended on the attempt
    can be resumed, and resuming it finishes it and leaves the other
    invocations as they are. *)
Theorem settled_attempt_resumes w t p :
  reachable w →
  tasks w !! t = Some (Awaiting p) → promises w !! p ≠ Some Pending →
  ∃ w' k, step w (Resume t) = Some w' ∧
          tasks w' !! t = Some k ∧ finished k = true ∧
          (∀ t', t' ≠ t → tasks w' !! t' = tasks w !! t').
Proof.
  intros Hw Ht Hnp. pose proof (reachable_Inv _ Hw) as HI.
  destruct (inv_attempt _ HI _ (inv_awaiting _ HI _ _ Ht))
    as (_&_&_&_&->&Hlen).
  assert (Hlt : t < length (tasks w)) by (by eapply lookup_lt_Some).
  simpl. rewrite Ht. unfold connectToDatabase_resume.
  destruct (promises w !! 0) as [[|m|e]|] eqn:Hp.
  - done.
  - eexists _, (Returned m). split; [done|]. simpl.
    rewrite list_lookup_insert_eq by done. repeat split.
    intros t' Hne. by rewrite list_lookup_insert_ne.
  - eexists _, (Threw e). split; [done|]. simpl.
    rewrite list_lookup_insert_eq by done. repeat split.
    intros t' Hne. by rewrite list_lookup_insert_ne.
  - apply lookup_ge_None in Hp. lia.
Qed.

Lemma settled_attempt_resumes_witness :
  ∃ w' k,
    step (world_after [Call; Call; Fulfil 0 7] (Some url0)) (Resume 1)
    = Some w' ∧
    tasks w' !! 1 = Some k ∧ finished k = true ∧
    (∀ t', t' ≠ 1 →
       tasks w' !! t'
       = tasks (world_after [Call; Call; Fulfil 0 7] (Some url0)) !! t').
Proof.
  apply (settled_attempt_resumes
           (world_after [Call; Call; Fulfil 0 7] (Some url0)) 1 0
           (reachable_world_after _ _) eq_refl).
  discriminate.
Defined.

(** ** Configuration *)

(** An empty connection string counts as a missing one: when the variable is
    unset or empty as the module loads, every invocation fails with 'Missing
    MONGODB_URL' and the driver is never called. *)
Theorem falsy_url_always_fails env evs w :
  truthy env = false →
  run evs (module_load env) = Some w →
  connect_calls w = [] ∧
  cached w = init_cached None ∧
  (∀ t k, tasks w !! t = Some k → k = Threw missing_url_error).
Proof.
  intros Henv Hrun.
  pose proof (run_MONGODB_URL _ _ _ Hrun) as Hu. simpl in Hu.
  assert (HI : Inv w).
  { apply reachable_Inv. eapply reachable_run; [apply reachable_load|done]. }
  assert (Hp : promise (cached w) = None).
  { destruct (promise (cached w)) as [p|] eqn:Hp; [|done].
    rewrite <- Hu, (url_of_attempt _ _ HI Hp) in Henv. done. }
  assert (Hc : conn (cached w) = None).
  { destruct (conn (cached w)) as [c|] eqn:Hc; [|done].
    destruct (inv_conn _ HI _ Hc) as (p&Hq&_). congruence. }
  split; [apply (inv_idle _ HI Hp)|]. split.
  - destruct (cached w) as [c q]. simpl in *. by subst.
  - intros t [p|m|e] Ht.
    + apply (inv_awaiting _ HI) in Ht. congruence.
    + apply (inv_returned _ HI) in Ht. congruence.
    + destruct (inv_threw _ HI _ _ Ht) as [[_ ->]|(p&Hq&_)]; [done|congruence].
Qed.

Lemma falsy_url_always_fails_witness :
  connect_calls (world_after [Call; Call] (Some EmptyString)) = [] ∧
  cached (world_after [Call; Call] (Some EmptyString)) = init_cached None ∧
  (∀ t k, tasks (world_after [Call; Call] (Some EmptyString)) !! t = Some k →
          k = Threw missing_url_error).
Proof.
  apply (falsy_url_always_fails (Some EmptyString) [Call; Call]
           (world_after [Call; Call] (Some EmptyString)) eq_refl eq_refl).
Defined.

Lemma attempt_recorded_after_call w :
  reachable w → truthy (MONGODB_URL w) = true → tasks w ≠ [] →
  is_Some (promise (cached w)).
Proof.
  induction 1 as [env|w ev w' Hw IH Hs]; [done|].
  intros Hu Hts. pose proof (reachable_Inv _ Hw) as HI.
  rewrite (step_MONGODB_URL _ _ _ Hs) in Hu.
  destruct ev as [|t|q m|q e|v]; simpl in Hs.
  - destruct (connectToDatabase_cases w)
      as [(c&Hc&H)|[(_&Hf&H)|[(url&p&_&_&_&Hp&H)|(url&_&_&_&_&H)]]];
      rewrite H in Hs; injection Hs as <-; simpl.
    + destruct (inv_conn _ HI _ Hc) as (p&->&_). done.
    + congruence.
    + by rewrite Hp.
    + done.
  - destruct (tasks w !! t) as [[p| |]|] eqn:Ht; try discriminate.
    pose proof (inv_awaiting _ HI _ _ Ht) as Hp.
    unfold connectToDatabase_resume in Hs.
    destruct (promises w !! p) as [[|m|e]|]; try discriminate;
      injection Hs as <-; simpl; by rewrite Hp.
  - unfold settle in Hs.
    destruct (promises w !! q) as [[| |]|]; try discriminate.
    injection Hs as <-. simpl in *. by apply IH.
  - unfold settle in Hs.
    destruct (promises w !! q) as [[| |]|]; try discriminate.
    injection Hs as <-. simpl in *. by apply IH.
  - injection Hs as <-. simpl in *. by apply IH.
Qed.

(** With a connection string configured, the driver has been called exactly
    once as soon as one call to [connectToDatabase] has been made, and the
    attempt of that call is the one on record. *)
Theorem connect_exactly_once w :
  reachable w → truthy (MONGODB_URL w) = true → tasks w ≠ [] →
  ∃ url, MONGODB_URL w = Some url ∧
         connect_calls w = [(url, connect_options)] ∧
         promise (cached w) = Some 0.
Proof.
  intros Hw Hu Hts.
  destruct (attempt_recorded_after_call _ Hw Hu Hts) as [p Hp].
  destruct (inv_attempt _ (reachable_Inv _ Hw) _ Hp) as (url&Hurl&_&Hc&->&_).
  eauto.
Qed.

Lemma connect_exactly_once_witness :
  ∃ url,
    MONGODB_URL (world_after [Call; Reject 0 econnrefused; Call] (Some url0))
    = Some url ∧
    connect_calls (world_after [Call; Reject 0 econnrefused; Call] (Some url0))
    = [(url, connect_options)] ∧
    promise (cached (world_after [Call; Reject 0 econnrefused; Call]
                       (Some url0))) = Some 0.
Proof.
  apply (connect_exactly_once
           (world_after [Call; Reject 0 econnrefused; Call] (Some url0))
           (reachable_world_after _ _) eq_refl).
  discriminate.
Defined.

(** ** Concurrent callers *)

Lemma run_app evs1 evs2 w :
  run (evs1 ++ evs2) w = run evs1 w ≫= run evs2.
Proof.
  revert w. induction evs1 as [|ev evs1 IH]; intros w; simpl; [done|].
  destruct (step w ev); simpl; auto.
Qed.

(** Calls that find an attempt on record join it. *)
Lemma run_calls_join k w url p :
  conn (cached w) = None → MONGODB_URL w = Some url →
  truthy (Some url) = true → promise (cached w) = Some p →
  run (replicate k Call) w
  = Some (set_tasks (tasks w ++ replicate k (Awaiting p)) w).
Proof.
  intros Hc Hu Ht Hp. revert w Hc Hu Hp.
  induction k as [|k IH]; intros w Hc Hu Hp.
  - simpl. rewrite app_nil_r. by destruct w.
  - cbn [replicate run step].
    destruct (connectToDatabase_cases w)
      as [(c&Hc'&_)|[(_&Hf&_)|[(url'&q&_&_&_&Hq&->)|(url'&_&_&_&Hn&_)]]];
      [congruence|rewrite Hu, Ht in Hf; done| |congruence].
    rewrite Hp in Hq. injection Hq as <-.
    rewrite IH by done. cbn [set_tasks tasks].
    by rewrite <- (assoc_L (++)).
Qed.

Lemma run_resumes_connected m p k : ∀ j w,
  conn (cached w) = Some m → promises w !! p = Some (Fulfilled m) →
  tasks w = replicate j (Returned m) ++ replicate k (Awaiting p) →
  run (map Resume (seq j k)) w
  = Some (set_tasks (replicate (j + k) (Returned m)) w).
Proof.
  induction k as [|k IH]; intros j w Hc Hf Hts.
  - simpl. rewrite app_nil_r in Hts. rewrite Nat.add_0_r, <- Hts.
    by destruct w.
  - cbn [seq map run step]. rewrite Hts.
    rewrite lookup_app_r by (rewrite length_replicate; lia).
    rewrite length_replicate, Nat.sub_diag. cbn [replicate lookup list_lookup].
    unfold connectToDatabase_resume. rewrite Hf, assign_conn_same by done.
    rewrite Hts.
    rewrite insert_app_r_alt by (rewrite length_replicate; lia).
    rewrite length_replicate, Nat.sub_diag. cbn [insert list_insert].
    rewrite (IH (S j)).
    + cbn [set_tasks]. by rewrite Nat.add_succ_r.
    + done.
    + done.
    + cbn [set_tasks tasks].
      rewrite (replicate_S_end j (Returned m)), <- (assoc_L (++)). done.
Qed.

Lemma run_resumes_rejected e p k : ∀ j w,
  promises w !! p = Some (Rejected e) →
  tasks w = replicate j (Threw e) ++ replicate k (Awaiting p) →
  run (map Resume (seq j k)) w
  = Some (set_tasks (replicate (j + k) (Threw e)) w).
Proof.
  induction k as [|k IH]; intros j w Hr Hts.
  - simpl. rewrite app_nil_r in Hts. rewrite Nat.add_0_r, <- Hts.
    by destruct w.
  - cbn [seq map run step]. rewrite Hts.
    rewrite lookup_app_r by (rewrite length_replicate; lia).
    rewrite length_replicate, Nat.sub_diag. cbn [replicate lookup list_lookup].
    unfold connectToDatabase_resume. rewrite Hr, Hts.
    rewrite insert_app_r_alt by (rewrite length_replicate; lia).
    rewrite length_replicate, Nat.sub_diag. cbn [insert list_insert].
    rewrite (IH (S j)).
    + cbn [set_tasks]. by rewrite Nat.add_succ_r.
    + done.
    + cbn [set_tasks tasks].
      rewrite (replicate_S_end j (Threw e)), <- (assoc_L (++)). done.
Qed.

Lemma run_cons ev evs w : run (ev :: evs) w = step w ev ≫= run evs.
Proof. simpl. by destruct (step w ev). Qed.

Lemma first_call_starts_attempt url :
  truthy (Some url) = true →
  step (module_load (Some url)) Call
  = Some {| process_env := Some url; MONGODB_URL := Some url;
            cached := {| conn := None; promise := Some 0 |};
            promises := [Pending];
            connect_calls := [(url, connect_options)];
            tasks := [Awaiting 0] |}.
Proof.
  intros Ht. simpl in Ht. simpl. unfold connectToDatabase. simpl.
  by rewrite Ht.
Qed.

(** Any number of calls made before the driver answers share one attempt:
    the driver is called once, and when it answers with a client and the
    invocations are resumed, every one of them returns that client. *)
Theorem concurrent_calls_share_client n url m :
  truthy (Some url) = true →
  run (concurrent_calls (S n) (Fulfil 0 m)) (module_load (Some url))
  = Some {| process_env := Some url; MONGODB_URL := Some url;
            cached := {| conn := Some m; promise := Some 0 |};
            promises := [Fulfilled m];
            connect_calls := [(url, connect_options)];
            tasks := replicate (S n) (Returned m) |}.
Proof.
  intros Ht. unfold concurrent_calls.
  change (replicate (S n) Call) with (Call :: replicate n Call).
  change (map Resume (seq 0 (S n))) with (Resume 0 :: map Resume (seq 1 n)).
  rewrite <- app_comm_cons, run_cons, (first_call_starts_attempt _ Ht).
  cbn [mbind option_bind].
  rewrite run_app, (run_calls_join n _ url 0) by done.
  cbn [mbind option_bind].
  rewrite (run_cons (Fulfil 0 m)). unfold step at 1, settle.
  cbn [set_tasks promises lookup list_lookup mbind option_bind].
  rewrite (run_cons (Resume 0)). unfold step at 1, connectToDatabase_resume.
  cbn [set_tasks set_promises tasks promises lookup list_lookup insert
       list_insert assign_conn set_cached cached promise process_env
       MONGODB_URL connect_calls mbind option_bind].
  etransitivity; [apply (run_resumes_connected m 0 n 1); done|].
  reflexivity.
Qed.

Lemma concurrent_calls_share_client_witness :
  tasks (world_after (concurrent_calls 3 (Fulfil 0 7)) (Some url0))
  = [Returned 7; Returned 7; Returned 7].
Proof.
  unfold world_after.
  rewrite (concurrent_calls_share_client 2 url0 7 eq_refl).
  reflexivity.
Defined.

(** The same when the driver answers with a failure: it is called once, and
    every one of the invocations throws the failure it reported; the client
    slot stays null and the failed attempt stays on record. *)
Theorem concurrent_calls_share_failure n url e :
  truthy (Some url) = true →
  run (concurrent_calls (S n) (Reject 0 e)) (module_load (Some url))
  = Some {| process_env := Some url; MONGODB_URL := Some url;
            cached := {| conn := None; promise := Some 0 |};
            promises := [Rejected e];
            connect_calls := [(url, connect_options)];
            tasks := replicate (S n) (Threw e) |}.
Proof.
  intros Ht. unfold concurrent_calls.
  change (replicate (S n) Call) with (Call :: replicate n Call).
  rewrite <- app_comm_cons, run_cons, (first_call_starts_attempt _ Ht).
  cbn [mbind option_bind].
  rewrite run_app, (run_calls_join n _ url 0) by done.
  cbn [mbind option_bind].
  rewrite (run_cons (Reject 0 e)). unfold step at 1, settle.
  cbn [set_tasks promises lookup list_lookup mbind option_bind].
  etransitivity; [apply (run_resumes_rejected e 0 (S n) 0); done|].
  reflexivity.
Qed.

Lemma concurrent_calls_share_failure_witness :
  tasks (world_after (concurrent_calls 2 (Reject 0 econnrefused)) (Some url0))
  = [Threw econnrefused; Threw econnrefused].
Proof.
  unfold world_after.
  rewrite (concurrent_calls_share_failure 1 url0 econnrefused eq_refl).
  reflexivity.
Defined.

(** ** Reloading the module *)

Lemma CacheInv_load env : CacheInv (module_load env).
Proof. split; simpl; try done; intros ? ?; by rewrite lookup_nil. Qed.

Lemma CacheInv_reload w : CacheInv w → CacheInv (module_reload w).
Proof. intros [Hc Ha Hi Hw Hr]. by split. Qed.

Lemma CacheInv_step w ev w' : CacheInv w → step w ev = Some w' → CacheInv w'.
Proof.
  intros [Hc Ha Hi Hw Hr]. destruct ev as [|t|q s|q e|v]; simpl.
  - destruct (connectToDatabase_cases w)
      as [(c&Hcn&->)|[(Hcn&Hu&->)|[(url&p&Hcn&Hu&Htr&Hp&->)|(url&Hcn&Hu&Htr&Hp&->)]]];
      intros [= <-].
    + split; simpl; try done.
      * intros t p [H|[_ [=]]]%lookup_snoc_inv; eauto.
      * intros t m [H|[_ [= ->]]]%lookup_snoc_inv; eauto.
    + split; simpl; try done.
      * intros t p [H|[_ [=]]]%lookup_snoc_inv; eauto.
      * intros t m [H|[_ [=]]]%lookup_snoc_inv; eauto.
    + split; simpl; try done.
      * intros t q [H|[_ [= ->]]]%lookup_snoc_inv; eauto.
      * intros t m [H|[_ [=]]]%lookup_snoc_inv; eauto.
    + destruct (Hi Hp) as [Hcalls Hps].
      split; simpl; rewrite ?Hcn, ?Hcalls, ?Hps; simpl; try done.
      * by intros p [= <-].
      * intros t q [H|[_ [= ->]]]%lookup_snoc_inv; [|done].
        apply Hw in H. congruence.
      * intros t m [H|[_ [=]]]%lookup_snoc_inv.
        apply Hr in H. congruence.
  - destruct (tasks w !! t) as [[p| |]|] eqn:Htask; try discriminate.
    unfold connectToDatabase_resume.
    pose proof (Hw _ _ Htask) as Hp.
    destruct (promises w !! p) as [[|m|e]|] eqn:Hpp; try discriminate;
      intros [= <-].
    + split; simpl.
      * intros c [= <-]. eauto.
      * done.
      * intros H. rewrite Hp in H. done.
      * intros t' q [(_&[=]&_)|[_ H]]%list_lookup_insert_Some. eauto.
      * intros t' m' [(_&[= <-]&_)|[_ H]]%list_lookup_insert_Some; [done|].
        apply Hr, Hc in H as (q&Hq&Hm). congruence.
    + split; simpl; try done.
      * intros t' q [(_&[=]&_)|[_ H]]%list_lookup_insert_Some. eauto.
      * intros t' m' [(_&[=]&_)|[_ H]]%list_lookup_insert_Some. eauto.
  - unfold settle.
    destruct (promises w !! q) as [[| |]|] eqn:Hpp; try discriminate.
    intros [= <-]. split; simpl; try done.
    + intros c Hcn. destruct (Hc _ Hcn) as (p&Hp&Hf). exists p. split; [done|].
      rewrite list_lookup_insert_ne; [done|congruence].
    + intros p Hp. rewrite length_insert. by apply Ha.
    + intros Hp. destruct (Hi Hp) as [_ Hnil]. rewrite Hnil in Hpp.
      by rewrite lookup_nil in Hpp.
  - unfold settle.
    destruct (promises w !! q) as [[| |]|] eqn:Hpp; try discriminate.
    intros [= <-]. split; simpl; try done.
    + intros c Hcn. destruct (Hc _ Hcn) as (p&Hp&Hf). exists p. split; [done|].
      rewrite list_lookup_insert_ne; [done|congruence].
    + intros p Hp. rewrite length_insert. by apply Ha.
    + intros Hp. destruct (Hi Hp) as [_ Hnil]. rewrite Hnil in Hpp.
      by rewrite lookup_nil in Hpp.
  - intros [= <-]. by split.
Qed.

Lemma reachable_hmr_CacheInv w : reachable_hmr w → CacheInv w.
Proof.
  induction 1; eauto using CacheInv_load, CacheInv_step, CacheInv_reload.
Qed.

Lemma reachable_hmr_of_reachable w : reachable w → reachable_hmr w.
Proof. induction 1; eauto using hmr_load, hmr_step. Qed.

(** The cache survives reloads of the module: however often the module is
    evaluated again in a process, and whatever the environment holds at each
    reload, the driver is called at most once, a cached client is the value
    of the one recorded attempt, and all invocations that returned, returned
    the same client. *)
Theorem reload_keeps_single_connection w :
  reachable_hmr w →
  length (connect_calls w) ≤ 1 ∧
  (∀ c, conn (cached w) = Some c →
     ∃ p, promise (cached w) = Some p ∧ promises w !! p = Some (Fulfilled c)) ∧
  (∀ t1 t2 m1 m2, tasks w !! t1 = Some (Returned m1) →
     tasks w !! t2 = Some (Returned m2) → m1 = m2).
Proof.
  intros Hw. apply reachable_hmr_CacheInv in Hw as [Hc Ha Hi _ Hr].
  split; [|split].
  - destruct (promise (cached w)) as [p|] eqn:Hp.
    + destruct (Ha _ eq_refl) as (_&_&->). done.
    + destruct (Hi eq_refl) as [-> _]. simpl. lia.
  - done.
  - intros t1 t2 m1 m2 H1 H2. apply Hr in H1, H2. congruence.
Qed.

Lemma reload_keeps_single_connection_witness :
  length (connect_calls
            (module_reload (world_after [Call; SetEnv None] (Some url0)))) ≤ 1.
Proof.
  apply (reload_keeps_single_connection
           (module_reload (world_after [Call; SetEnv None] (Some url0)))).
  apply hmr_reload, reachable_hmr_of_reachable, reachable_world_after.
Defined.

(** * Properties of the sidebar *)

Lemma flat_map_select_app t (l1 l2 : list Node) :
  flat_map (select t) (l1 ++ l2)
  = flat_map (select t) l1 ++ flat_map (select t) l2.
Proof. apply flat_map_app. Qed.

Lemma links_of_nav_items p (ls : list NavLink) :
  omap (string_attr "href") (flat_map (select "Link") (map (nav_item p) ls))
  = map route ls.
Proof. induction ls as [|l ls IH]; simpl; [done|]. f_equal. exact IH. Qed.

(** The list items hold [li], [Link] and [Image] elements only. *)
Lemma select_nav_items_other t p (ls : list NavLink) :
  String.eqb "li" t = false → String.eqb "Link" t = false →
  String.eqb "Image" t = false →
  flat_map (select t) (map (nav_item p) ls) = [].
Proof.
  intros H1 H2 H3. induction ls as [|l ls IH]; [done|].
  cbn [map flat_map]. rewrite IH. unfold nav_item.
  cbn [select flat_map app]. by rewrite H1, H2, H3.
Qed.

(** Inside [SignedIn] the sidebar links to every route of [navLinks], once
    each and in the order of the array, however long the array is; inside
    [SignedOut] it links to the sign-in page only. *)
Theorem sidebar_links navLinks pathname :
  flat_map hrefs (select "SignedIn" (Sidebar navLinks pathname))
  = map route navLinks ∧
  flat_map hrefs (select "SignedOut" (Sidebar navLinks pathname))
  = ["/sign-in"].
Proof.
  unfold Sidebar.
  remember (take 6 navLinks) as first eqn:Hfirst.
  remember (drop 6 navLinks) as rest eqn:Hrest.
  split; simpl; rewrite flat_map_select_app, !select_nav_items_other by done.
  - simpl. rewrite app_nil_r. unfold hrefs. simpl.
    rewrite flat_map_select_app, !omap_app, !links_of_nav_items.
    simpl. rewrite !app_nil_r, <- map_app. subst. by rewrite take_drop.
  - reflexivity.
Qed.

Lemma sidebar_links_witness :
  flat_map hrefs (select "SignedIn" (Sidebar sample_links "/profile"))
  = map route sample_links.
Proof. apply (sidebar_links sample_links "/profile"). Defined.

Lemma lis_of_nav_items p (ls : list NavLink) :
  flat_map (select "li") (map (nav_item p) ls) = map (nav_item p) ls.
Proof. induction ls as [|l ls IH]; simpl; [done|]. f_equal. exact IH. Qed.

Lemma uls_of_Sidebar navLinks pathname :
  select "ul" (Sidebar navLinks pathname)
  = [Element "ul" None [("className", PString "sidebar-nav_elements")]
       (map (nav_item pathname) (take 6 navLinks));
     Element "ul" None [("className", PString "sidebar-nav_elements")]
       (map (nav_item pathname) (drop 6 navLinks) ++ [user_item])].
Proof.
  unfold Sidebar.
  remember (take 6 navLinks) as first eqn:Hfirst.
  remember (drop 6 navLinks) as rest eqn:Hrest.
  simpl. rewrite flat_map_select_app, !select_nav_items_other by done.
  reflexivity.
Qed.

Lemma lis_of_Sidebar navLinks pathname :
  select "li" (Sidebar navLinks pathname)
  = map (nav_item pathname) navLinks ++ [user_item].
Proof.
  unfold Sidebar.
  remember (take 6 navLinks) as first eqn:Hfirst.
  remember (drop 6 navLinks) as rest eqn:Hrest.
  simpl. rewrite flat_map_select_app, !lis_of_nav_items. simpl.
  rewrite !app_nil_r, (assoc_L (++)), <- map_app. subst.
  by rewrite take_drop.
Qed.

(** The sidebar renders two lists: the first holds the items of at most the
    first six links, the second the items of the links from the seventh on
    followed by the user button; with six links or fewer the second list
    holds the user button alone. *)
Theorem sidebar_lists navLinks pathname :
  (length ∘ children_of) <$> select "ul" (Sidebar navLinks pathname)
  = [length navLinks `min` 6; length navLinks - 6 + 1] ∧
  (length navLinks ≤ 6 →
   children_of <$> select "ul" (Sidebar navLinks pathname)
   = [map (nav_item pathname) navLinks; [user_item]]).
Proof.
  rewrite uls_of_Sidebar. split.
  - cbn [fmap list_fmap compose children_of].
    rewrite length_app, !length_map, length_take, length_drop.
    by rewrite Nat.min_comm.
  - intros Hlen. cbn [fmap list_fmap children_of].
    rewrite take_ge, drop_ge by done. done.
Qed.

Lemma sidebar_lists_witness :
  children_of <$> select "ul" (Sidebar (take 2 sample_links) "/")
  = [map (nav_item "/") (take 2 sample_links); [user_item]].
Proof.
  apply (sidebar_lists (take 2 sample_links) "/"). simpl. lia.
Defined.

Lemma highlighted_nav_item p l :
  highlighted (nav_item p l) = String.eqb (route l) p.
Proof.
  unfold highlighted, nav_item.
  destruct (String.eqb (route l) p); reflexivity.
Qed.

Lemma highlighted_nav_items p (ls : list NavLink) :
  filter (λ n, highlighted n = true) (map (nav_item p) ls)
  = map (nav_item p) (filter (λ l, route l = p) ls).
Proof.
  induction ls as [|l ls IH]; [done|]. cbn [map].
  destruct (String.eqb_spec (route l) p) as [Heq|Hne].
  - rewrite !filter_cons_True; [|done|].
    + cbn [map]. by rewrite IH.
    + rewrite highlighted_nav_item. by apply String.eqb_eq.
  - rewrite !filter_cons_False; [done|done|].
    rewrite highlighted_nav_item. intros H%String.eqb_eq. done.
Qed.

Lemma filter_route_absent p (ls : list NavLink) :
  p ∉ map route ls → filter (λ l, route l = p) ls = [].
Proof.
  induction ls as [|l ls IH]; [done|]. cbn [map].
  intros [Hne Hnin]%not_elem_of_cons.
  rewrite filter_cons_False by congruence. by apply IH.
Qed.

Lemma filter_route_NoDup p (ls : list NavLink) :
  NoDup (map route ls) → length (filter (λ l, route l = p) ls) ≤ 1.
Proof.
  induction ls as [|l ls IH]; [simpl; lia|]. cbn [map].
  intros [Hnin Hnd]%NoDup_cons.
  destruct (decide (route l = p)) as [Heq|Hne].
  - rewrite filter_cons_True by done.
    rewrite filter_route_absent by congruence. simpl. lia.
  - rewrite filter_cons_False by done. by apply IH.
Qed.

(** The highlighted list items are exactly the items of the links whose route
    is the current pathname, in the order of [navLinks]: none when the
    pathname is not one of the routes, and at most one when the routes are
    distinct.  The user button is never highlighted. *)
Theorem sidebar_highlight navLinks pathname :
  filter (λ n, highlighted n = true) (select "li" (Sidebar navLinks pathname))
  = map (nav_item pathname) (filter (λ l, route l = pathname) navLinks) ∧
  (pathname ∉ map route navLinks →
   filter (λ n, highlighted n = true)
     (select "li" (Sidebar navLinks pathname)) = []) ∧
  (NoDup (map route navLinks) →
   length (filter (λ n, highlighted n = true)
             (select "li" (Sidebar navLinks pathname))) ≤ 1).
Proof.
  assert (H : filter (λ n, highlighted n = true)
                (select "li" (Sidebar navLinks pathname))
              = map (nav_item pathname)
                  (filter (λ l, route l = pathname) navLinks)).
  { rewrite lis_of_Sidebar, filter_app, highlighted_nav_items.
    rewrite filter_cons_False by done. by rewrite filter_nil, app_nil_r. }
  rewrite H. split; [done|split].
  - intros Hnin. by rewrite filter_route_absent.
  - intros Hnd. rewrite length_map. by apply filter_route_NoDup.
Qed.

Lemma sidebar_highlight_witness :
  length (filter (λ n, highlighted n = true)
            (select "li" (Sidebar sample_links "/profile"))) ≤ 1.
Proof.
  apply (sidebar_highlight sample_links "/profile").
  apply (bool_decide_unpack _). vm_compute. exact I.
Defined.

Lemma image_classes_of_nav_items p (ls : list NavLink) :
  omap (string_attr "className")
    (flat_map (select "Image") (map (nav_item p) ls))
  = map (λ l, if String.eqb (route l) p then "brightness-200" else "false") ls.
Proof.
  induction ls as [|l ls IH]; simpl; [done|].
  f_equal; [by destruct (String.eqb _ _)|exact IH].
Qed.

(** The icon of the link of the current route gets the class
    'brightness-200'; the icon of every other link gets the class 'false',
    the text of the boolean that [isActive && "brightness-200"] evaluates to.
    The logo has no class. *)
Theorem sidebar_icon_classes navLinks pathname :
  omap (string_attr "className")
    (select "Image" (Sidebar navLinks pathname))
  = map (λ l, if String.eqb (route l) pathname
              then "brightness-200" else "false") navLinks.
Proof.
  unfold Sidebar.
  remember (take 6 navLinks) as first eqn:Hfirst.
  remember (drop 6 navLinks) as rest eqn:Hrest.
  simpl. rewrite flat_map_select_app, !omap_app, !image_classes_of_nav_items.
  simpl. rewrite !app_nil_r, <- map_app. subst. by rewrite take_drop.
Qed.

Lemma keys_of_nav_items p (ls : list NavLink) :
  omap key_of (map (nav_item p) ls) = map route ls.
Proof. induction ls as [|l ls IH]; simpl; [done|]. f_equal. exact IH. Qed.

(** When the routes of [navLinks] are distinct, the keys of the items of each
    of the two lists are distinct. *)
Theorem sidebar_keys_distinct navLinks pathname :
  NoDup (map route navLinks) →
  Forall (λ u, NoDup (omap key_of (children_of u)))
    (select "ul" (Sidebar navLinks pathname)).
Proof.
  intros Hnd. rewrite uls_of_Sidebar.
  rewrite <- (take_drop 6 navLinks), map_app in Hnd.
  apply NoDup_app in Hnd as (H1&_&H2).
  repeat apply Forall_cons_2; [| |apply Forall_nil_2]; cbn [children_of].
  - by rewrite keys_of_nav_items.
  - rewrite omap_app, keys_of_nav_items. simpl. by rewrite app_nil_r.
Qed.

Lemma sidebar_keys_distinct_witness :
  Forall (λ u, NoDup (omap key_of (children_of u)))
    (select "ul" (Sidebar sample_links "/")).
Proof.
  apply (sidebar_keys_distinct sample_links "/").
  apply (bool_decide_unpack _). vm_compute. exact I.
Defined.
